(** * freud: LocalDescriptors and RotationalAutocorrelation

    Shallow embedding of
    - [src/cpp/environment/LocalDescriptors.h] / [LocalDescriptors.cc]
    - [src/cpp/order/RotationalAutocorrelation.h]

    Conventions.
    - [unsigned int] arithmetic is written out with its wrap-around
      modulo 2^32 ([u32]).
    - The descriptor engine's vector arithmetic is modelled over the reals
      (rounding abstracted away); the polar-angle guard, whose purpose is
      to catch floating-point effects, is modelled a second time over IEEE
      binary32 ([SpecFloat] with precision 24 and emax 128).
    - External collaborators (box wrapping, eigensolver, spherical-harmonic
      evaluator, libm's [atan2]/[acos]) are section variables. *)

From Stdlib Require Import ZArith NArith List Lia Bool.
From Stdlib Require Import Reals Lra.
From Stdlib Require Import Floats.SpecFloat.
Import ListNotations.

(** ** Unsigned 32-bit arithmetic *)

Definition UINT_MOD : N := 4294967296%N.

(** Conversion of a mathematical result into [unsigned int]. *)
Definition u32 (n : nat) : nat := N.to_nat (N.of_nat n mod UINT_MOD)%N.

Lemma u32_small (n : nat) : (N.of_nat n < UINT_MOD)%N -> u32 n = n.
Proof.
  intros H. unfold u32. rewrite N.mod_small by exact H. apply Nat2N.id.
Qed.

(** ** The spherical-harmonic count and the descriptor width *)

Module Fsph.

(** Modelled from the spec: [fsph::sphCount] (the external evaluator's
    count), "the number of (l,m) coefficients for l=0..lmax with m>=0".
    The pairs are enumerated in the evaluator's order (ascending degree,
    then order). *)
Definition nonneg_pairs (lmax : nat) : list (nat * Z) :=
  flat_map (fun l => map (fun m => (l, Z.of_nat m)) (seq 0 (S l))) (seq 0 (S lmax)).

Definition sphCount (lmax : nat) : nat := length (nonneg_pairs lmax).

(** The coefficients of negative order -l <= m <= -1 for l = 0..d. *)
Definition negative_pairs (d : nat) : list (nat * Z) :=
  flat_map (fun l => map (fun m => (l, - Z.of_nat (S m))%Z) (seq 0 l)) (seq 0 (S d)).

(** [LocalDescriptors::getSphWidth]:
    [sphCount(m_lmax) + (m_lmax > 0 && m_negative_m ? sphCount(m_lmax - 1) : 0)],
    an [unsigned int] sum. *)
Definition getSphWidth (m_lmax : nat) (m_negative_m : bool) : nat :=
  u32 (sphCount m_lmax
       + (if (0 <? m_lmax) && m_negative_m then sphCount (m_lmax - 1) else 0)).

Lemma length_flat_map_seq (f : nat -> list (nat * Z)) (n : nat) :
  length (flat_map f (seq 0 n)) = fold_right Nat.add 0 (map (fun l => length (f l)) (seq 0 n)).
Proof.
  induction (seq 0 n) as [|a s IH]; simpl; [reflexivity|].
  rewrite length_app, IH. reflexivity.
Qed.

Lemma sum_seq_succ (g : nat -> nat) (n : nat) :
  fold_right Nat.add 0 (map g (seq 0 (S n)))
  = fold_right Nat.add 0 (map g (seq 0 n)) + g n.
Proof.
  rewrite seq_S, map_app, fold_right_app. simpl.
  generalize (g n) as k. intros k.
  induction (map g (seq 0 n)) as [|a s IH]; simpl; lia.
Qed.

Lemma sphCount_twice (lmax : nat) : 2 * sphCount lmax = (lmax + 1) * (lmax + 2).
Proof.
  unfold sphCount, nonneg_pairs. rewrite length_flat_map_seq.
  induction lmax as [|k IH].
  - reflexivity.
  - rewrite sum_seq_succ. rewrite length_map, length_seq. lia.
Qed.

Lemma negative_count_twice (d : nat) : 2 * length (negative_pairs d) = d * (d + 1).
Proof.
  unfold negative_pairs. rewrite length_flat_map_seq.
  induction d as [|k IH].
  - reflexivity.
  - rewrite sum_seq_succ. rewrite length_map, length_seq. lia.
Qed.

Lemma sphCount_closed (lmax : nat) : sphCount lmax = (lmax + 1) * (lmax + 2) / 2.
Proof.
  pose proof (sphCount_twice lmax) as H. rewrite <- H.
  rewrite Nat.mul_comm, Nat.div_mul by lia. reflexivity.
Qed.

Lemma negative_count_closed (d : nat) : length (negative_pairs d) = d * (d + 1) / 2.
Proof.
  pose proof (negative_count_twice d) as H. rewrite <- H.
  rewrite Nat.mul_comm, Nat.div_mul by lia. reflexivity.
Qed.

End Fsph.

(** ** LocalDescriptors *)

Module LD.

Open Scope R_scope.

Record vec3 := mkVec { vx : R; vy : R; vz : R }.

Definition vsub (a b : vec3) : vec3 := mkVec (vx a - vx b) (vy a - vy b) (vz a - vz b).

(** [dot(a, b) = a.x*b.x + a.y*b.y + a.z*b.z]. *)
Definition dot (a b : vec3) : R := vx a * vx b + vy a * vy b + vz a * vz b.

Record quat := mkQuat { qs : R; qv : vec3 }.

(** [std::complex<float>] as (real part, imaginary part). *)
Definition complexf : Type := (R * R)%type.

(** [enum LocalDescriptorOrientation]; the value passed to [compute] is
    an arbitrary integer of the enum's underlying type. *)
Definition LocalDescriptorOrientation : Type := Z.
Definition LocalNeighborhood : Z := 0%Z.
Definition Global : Z := 1%Z.
Definition ParticleLocal : Z := 2%Z.

(** The three rows [rotation_0], [rotation_1], [rotation_2]. *)
Definition frame : Type := (vec3 * vec3 * vec3)%type.

(** A 3x3 matrix read through [Index2D a_i(3)]; the packing is shared by
    the code and the eigensolver, so entries are addressed by (row, col). *)
Definition Mat33 : Type := nat -> nat -> R.

(** Errors: the two C++ exceptions, and undefined behaviour (an
    out-of-range read through one of the raw input pointers, a null
    [q_ref], or a write past the end of the output buffer). *)
Inductive error := InvalidArgument | UnsupportedMode | OutOfBounds.

Inductive res (A : Type) : Type :=
| Ok (a : A)
| Fail (e : error).
Arguments Ok {A} a.
Arguments Fail {A} e.

(** *** Neighbor list *)

(** Modelled from the spec: [NeighborList] (external). Bonds are the pairs
    [(neighbor_list[2*b], neighbor_list[2*b+1])]. [validate(Nref, Np)]
    fails if bond endpoints are out of range. *)
Definition validate (nl : list (nat * nat)) (Nref Np : nat) : bool :=
  forallb (fun '(i, j) => (i <? Nref)%nat && (j <? Np)%nat) nl.

Definition getNumBonds (nl : list (nat * nat)) : nat := length nl.

(** Modelled from the spec: [find_first_index(i)] returns the first bond
    offset for reference index i, or the total bond count if i has none. *)
Fixpoint find_first_index_from (nl : list (nat * nat)) (i k : nat) : nat :=
  match nl with
  | [] => k
  | (a, _) :: t => if (a =? i)%nat then k else find_first_index_from t i (S k)
  end.

Definition find_first_index (nl : list (nat * nat)) (i : nat) : nat :=
  find_first_index_from nl i 0.

Definition ref_of (nl : list (nat * nat)) (b : nat) : nat := fst (nth b nl (0, 0)%nat).
Definition nbr_of (nl : list (nat * nat)) (b : nat) : nat := snd (nth b nl (0, 0)%nat).

(** *** Engine state *)

(** [m_sphArray] is a [shared_ptr] to a [new complex<float>[]]; it is
    modelled by the number of allocations made so far (which identifies
    the array the pointer designates; 0 is the initial null pointer) and
    the array's slots. *)
Record LocalDescriptors := mkLD {
  m_lmax : nat;
  m_negative_m : bool;
  m_Nref : nat;
  m_nSphs : nat;
  m_allocs : nat;
  m_sphArray : list complexf
}.

(** [LocalDescriptors(lmax, negative_m)]. *)
Definition LocalDescriptors_ctor (lmax : nat) (negative_m : bool) : LocalDescriptors :=
  mkLD lmax negative_m 0 0 0 [].

Definition getSphWidth (st : LocalDescriptors) : nat :=
  Fsph.getSphWidth (m_lmax st) (m_negative_m st).

(** The value of a default-constructed [complex<float>]: (0, 0). *)
Definition czero : complexf := (0%R, 0%R).

(** [m_sphArray = shared_ptr(new complex<float>[n])]: the [new]
    expression default-constructs every element, hence (0, 0). *)
Definition reallocate (st : LocalDescriptors) (n : nat) : LocalDescriptors :=
  mkLD (m_lmax st) (m_negative_m st) (m_Nref st) (m_nSphs st) (S (m_allocs st))
       (repeat czero n).

Definition with_array (st : LocalDescriptors) (arr : list complexf) : LocalDescriptors :=
  mkLD (m_lmax st) (m_negative_m st) (m_Nref st) (m_nSphs st) (m_allocs st) arr.

(** [m_Nref = Nref; m_nSphs = nlist->getNumBonds();] *)
Definition save_counts (st : LocalDescriptors) (Nref nb : nat) : LocalDescriptors :=
  mkLD (m_lmax st) (m_negative_m st) Nref (u32 nb) (m_allocs st) (m_sphArray st).

(** [std::copy] of [vals] to [&sph_array[off]]. *)
Fixpoint write_slots (arr : list complexf) (off : nat) (vals : list complexf)
  : option (list complexf) :=
  match vals with
  | [] => Some arr
  | v :: vs =>
      if (off <? length arr)%nat
      then write_slots (firstn off arr ++ v :: skipn (S off) arr) (S off) vs
      else None
  end.

(** *** Frame construction *)

Definition zero33 : Mat33 := fun _ _ => 0.

Definition upd (T : Mat33) (a b : nat) (v : R) : Mat33 :=
  fun a' b' => if (a' =? a)%nat && (b' =? b)%nat then v else T a' b'.

(** One bond of the [LocalNeighborhood] accumulation (lines 70-85). *)
Definition inertia_step (T : Mat33) (rvec : vec3) : Mat33 :=
  let rsq := dot rvec rvec in
  let x := vx rvec in let y := vy rvec in let z := vz rvec in
  let T := upd T 0 0 (T 0%nat 0%nat + rsq) in
  let T := upd T 1 1 (T 1%nat 1%nat + rsq) in
  let T := upd T 2 2 (T 2%nat 2%nat + rsq) in
  let T := upd T 0 0 (T 0%nat 0%nat - x * x) in
  let T := upd T 0 1 (T 0%nat 1%nat - x * y) in
  let T := upd T 0 2 (T 0%nat 2%nat - x * z) in
  let T := upd T 1 0 (T 1%nat 0%nat - x * y) in
  let T := upd T 1 1 (T 1%nat 1%nat - y * y) in
  let T := upd T 1 2 (T 1%nat 2%nat - y * z) in
  let T := upd T 2 0 (T 2%nat 0%nat - x * z) in
  let T := upd T 2 1 (T 2%nat 1%nat - y * z) in
  upd T 2 2 (T 2%nat 2%nat - z * z).

(** The solver's k-th returned eigenvector: column k of its output. *)
Definition eigenvector (V : Mat33) (k : nat) : vec3 := mkVec (V 0%nat k) (V 1%nat k) (V 2%nat k).

Definition global_frame : frame := (mkVec 1 0 0, mkVec 0 1 0, mkVec 0 0 1).

Definition project (fr : frame) (v : vec3) : vec3 :=
  let '(r0, r1, r2) := fr in mkVec (dot r0 v) (dot r1 v) (dot r2 v).

Section Compute.

(** External collaborators. *)
Variable wrap : vec3 -> vec3.
Variable diagonalize33SymmetricMatrix : Mat33 -> (nat -> R) * Mat33.
Variable conj : quat -> quat.
Variable rotmat3_rows : quat -> frame.
Variable atan2 : R -> R -> R.
Variable acos : R -> R.
Variable isnan : R -> bool.
(** [PointSPHEvaluator(lmax)]: [compute(phi, theta)] then the range
    [begin(negative_m) .. end()]. *)
Variable sph_eval : nat -> bool -> R -> R -> list complexf.

(** Azimuth and polar angle of a bond (lines 129-138). *)
Definition bond_angles (bond_ij : vec3) (magR : R) : R * R :=
  let theta0 := atan2 (vy bond_ij) (vx bond_ij) in
  let theta := if Rlt_dec theta0 0 then theta0 + 2 * PI else theta0 in
  let phi0 := acos (vz bond_ij / magR) in
  let phi := if isnan phi0 then (if Rlt_dec 0 (vz bond_ij) then 0 else PI) else phi0 in
  (theta, phi).

(** The spherical coordinates (theta, phi) of a vector, by the same formula. *)
Definition spherical_coords (v : vec3) : R * R := bond_angles v (sqrt (dot v v)).

(** The (theta, phi) handed to the evaluator for a wrapped bond [rij]. *)
Definition bond_theta_phi (fr : frame) (rij : vec3) : R * R :=
  let rsq := dot rij rij in
  let bond_ij := project fr rij in
  let magR := sqrt rsq in
  bond_angles bond_ij magR.

Section Call.

(** The arguments of one [compute] call. *)
Variables (nl : list (nat * nat)) (nNeigh : nat) (r_ref r : list vec3)
          (q_ref : option (list quat)) (orientation : Z)
          (lmax width : nat) (negative_m : bool).

Definition bond_descriptor (fr : frame) (rij : vec3) : list complexf :=
  let '(theta, phi) := bond_theta_phi fr rij in sph_eval lmax negative_m phi theta.

(** The accumulation loop of lines 63-86; [fuel] counts the remaining
    iterations allowed by [bond_copy < bond + nNeigh]. *)
Fixpoint inertia_loop (r_i : vec3) (i bond_copy fuel : nat) (T : Mat33) : res Mat33 :=
  match fuel with
  | O => Ok T
  | S f =>
      if (bond_copy <? getNumBonds nl)%nat && (ref_of nl bond_copy =? i)%nat then
        match nth_error r (nbr_of nl bond_copy) with
        | None => Fail OutOfBounds
        | Some r_j => inertia_loop r_i i (S bond_copy) f (inertia_step T (wrap (vsub r_j r_i)))
        end
      else Ok T
  end.

(** Lines 53-116. *)
Definition frame_for (i bond : nat) (r_i : vec3) : res frame :=
  if (orientation =? LocalNeighborhood)%Z then
    match inertia_loop r_i i bond nNeigh zero33 with
    | Fail e => Fail e
    | Ok T =>
        let V := snd (diagonalize33SymmetricMatrix T) in
        Ok (eigenvector V 0, eigenvector V 1, eigenvector V 2)
    end
  else if (orientation =? ParticleLocal)%Z then
    match q_ref with
    | None => Fail OutOfBounds
    | Some qs =>
        match nth_error qs i with
        | None => Fail OutOfBounds
        | Some q => Ok (rotmat3_rows (conj q))
        end
    end
  else if (orientation =? Global)%Z then Ok global_frame
  else Fail UnsupportedMode.

(** The bond loop of lines 118-143. *)
Fixpoint bond_loop (arr : list complexf) (fr : frame) (r_i : vec3) (i bond fuel : nat)
  : list complexf * option error :=
  match fuel with
  | O => (arr, None)
  | S f =>
      if (bond <? getNumBonds nl)%nat && (ref_of nl bond =? i)%nat then
        let sphCount := u32 (bond * width) in
        match nth_error r (nbr_of nl bond) with
        | None => (arr, Some OutOfBounds)
        | Some r_j =>
            match write_slots arr sphCount (bond_descriptor fr (wrap (vsub r_j r_i))) with
            | None => (arr, Some OutOfBounds)
            | Some arr' => bond_loop arr' fr r_i i (S bond) f
            end
        end
      else (arr, None)
  end.

(** The body of the [parallel_for] over [0, Nref), run for
    i = [i], ..., [i + fuel - 1]. Every task writes the slots of its own
    bonds only, so the sequential order gives the same array. *)
Fixpoint particle_loop (arr : list complexf) (i fuel : nat)
  : list complexf * option error :=
  match fuel with
  | O => (arr, None)
  | S f =>
      let bond := find_first_index nl i in
      match nth_error r_ref i with
      | None => (arr, Some OutOfBounds)
      | Some r_i =>
          match frame_for i bond r_i with
          | Fail e => (arr, Some e)
          | Ok fr =>
              match bond_loop arr fr r_i i bond nNeigh with
              | (arr', Some e) => (arr', Some e)
              | (arr', None) => particle_loop arr' (S i) f
              end
          end
      end
  end.

End Call.

(** [LocalDescriptors::compute]; the state is returned also when the call
    throws, as the C++ object keeps the mutations made before the throw. *)
Definition compute (st : LocalDescriptors) (nl : list (nat * nat)) (nNeigh : nat)
  (r_ref : list vec3) (Nref : nat) (r : list vec3) (Np : nat)
  (q_ref : option (list quat)) (orientation : Z) : LocalDescriptors * option error :=
  if negb (validate nl Nref Np) then (st, Some InvalidArgument) else
  let nb := getNumBonds nl in
  let st1 := if (m_nSphs st <? nb)%nat then reallocate st (nb * getSphWidth st) else st in
  match particle_loop nl nNeigh r_ref r q_ref orientation (m_lmax st1) (getSphWidth st1)
          (m_negative_m st1) (m_sphArray st1) 0 Nref with
  | (arr, Some e) => (with_array st1 arr, Some e)
  | (arr, None) => (save_counts (with_array st1 arr) Nref nb, None)
  end.

(** *** Facts used by the theorems below *)

Lemma write_slots_length (arr arr' : list complexf) (off : nat) (vals : list complexf) :
  write_slots arr off vals = Some arr' -> length arr' = length arr.
Proof.
  revert arr off. induction vals as [|v vs IH]; intros arr off H; cbn [write_slots] in H.
  - congruence.
  - destruct (off <? length arr)%nat eqn:Hoff; [|discriminate].
    apply Nat.ltb_lt in Hoff.
    rewrite (IH _ _ H), length_app. cbn [length].
    rewrite length_firstn. cbn [length]. rewrite length_skipn. lia.
Qed.

Lemma bond_loop_length nl r lmax width neg arr fr r_i i bond fuel :
  length (fst (bond_loop nl r lmax width neg arr fr r_i i bond fuel)) = length arr.
Proof.
  revert arr bond. induction fuel as [|f IH]; intros arr bond; simpl; [reflexivity|].
  destruct (_ && _); [|reflexivity].
  destruct (nth_error r _); [|reflexivity].
  destruct (write_slots _ _ _) eqn:W; [|reflexivity].
  rewrite IH. eapply write_slots_length; eauto.
Qed.

Lemma particle_loop_length nl nNeigh r_ref r q_ref o lmax width neg arr i fuel :
  length (fst (particle_loop nl nNeigh r_ref r q_ref o lmax width neg arr i fuel)) = length arr.
Proof.
  revert arr i. induction fuel as [|f IH]; intros arr i; simpl; [reflexivity|].
  destruct (nth_error r_ref i); [|reflexivity].
  destruct (frame_for _ _ _ _ _ _ _ _); [|reflexivity].
  pose proof (bond_loop_length nl r lmax width neg arr a v i (find_first_index nl i) nNeigh) as HL.
  destruct (bond_loop _ _ _ _ _ _ _ _ _ _ _) as [arr' [e|]]; simpl in *.
  - exact HL.
  - rewrite IH. exact HL.
Qed.

Lemma frame_for_q_ref_unused nl nNeigh r q1 q2 o i bond r_i :
  o <> ParticleLocal ->
  frame_for nl nNeigh r q1 o i bond r_i = frame_for nl nNeigh r q2 o i bond r_i.
Proof.
  intros Ho. unfold frame_for.
  destruct (o =? LocalNeighborhood)%Z; [reflexivity|].
  destruct (o =? ParticleLocal)%Z eqn:E; [|reflexivity].
  apply Z.eqb_eq in E. contradiction.
Qed.

Lemma particle_loop_q_ref_unused nl nNeigh r_ref r q1 q2 o lmax width neg arr i fuel :
  o <> ParticleLocal ->
  particle_loop nl nNeigh r_ref r q1 o lmax width neg arr i fuel
  = particle_loop nl nNeigh r_ref r q2 o lmax width neg arr i fuel.
Proof.
  intros Ho. revert arr i. induction fuel as [|f IH]; intros arr i; simpl; [reflexivity|].
  destruct (nth_error r_ref i); [|reflexivity].
  rewrite (frame_for_q_ref_unused nl nNeigh r q1 q2 o i (find_first_index nl i) v Ho).
  destruct (frame_for _ _ _ _ _ _ _ _); [|reflexivity].
  destruct (bond_loop _ _ _ _ _ _ _ _ _ _ _) as [arr' [e|]]; [reflexivity|].
  apply IH.
Qed.

End Compute.

(** *** The [LocalNeighborhood] tensor, as the spec states it *)

Definition comp (a : nat) (v : vec3) : R :=
  match a with 0%nat => vx v | 1%nat => vy v | _ => vz v end.

Definition kron (a c : nat) : R := if (a =? c)%nat then 1 else 0.

(** Sum over the bond vectors of [|rvec|^2 * delta_ac - rvec_a * rvec_c]. *)
Fixpoint spec_inertia (vs : list vec3) (a c : nat) : R :=
  match vs with
  | [] => 0
  | v :: t => (dot v v * kron a c - comp a v * comp c v) + spec_inertia t a c
  end.

Lemma inertia_step_entry (T : Mat33) (v : vec3) (a c : nat) :
  (a < 3)%nat -> (c < 3)%nat ->
  inertia_step T v a c = T a c + (dot v v * kron a c - comp a v * comp c v).
Proof.
  intros Ha Hc. destruct v as [x y z].
  destruct a as [|[|[|a]]]; try lia; destruct c as [|[|[|c]]]; try lia;
    unfold inertia_step, upd, kron, comp; cbn; ring.
Qed.

Lemma fold_inertia_entry (vs : list vec3) (T : Mat33) (a c : nat) :
  (a < 3)%nat -> (c < 3)%nat ->
  fold_left inertia_step vs T a c = T a c + spec_inertia vs a c.
Proof.
  intros Ha Hc. revert T. induction vs as [|v t IH]; intros T; simpl.
  - ring.
  - rewrite IH, inertia_step_entry by assumption. ring.
Qed.

(** The accumulation loop visits a run of consecutive bonds of i, at most
    [fuel] of them, and folds [inertia_step] over their wrapped vectors. *)
Lemma inertia_loop_run wrap nl r r_i i bond fuel T T' :
  inertia_loop wrap nl r r_i i bond fuel T = Ok T' ->
  exists n rvecs,
    (n <= fuel)%nat /\
    Forall (fun b => (b < getNumBonds nl)%nat /\ ref_of nl b = i) (seq bond n) /\
    Forall2 (fun b v => exists r_j, nth_error r (nbr_of nl b) = Some r_j /\ v = wrap (vsub r_j r_i))
            (seq bond n) rvecs /\
    T' = fold_left inertia_step rvecs T.
Proof.
  revert bond T. induction fuel as [|f IH]; intros bond T H; simpl in H.
  - injection H as <-. exists 0%nat, []. repeat split; auto.
  - destruct ((bond <? getNumBonds nl)%nat && (ref_of nl bond =? i)%nat) eqn:Hc.
    + apply andb_true_iff in Hc as [Hb Hi].
      apply Nat.ltb_lt in Hb. apply Nat.eqb_eq in Hi.
      destruct (nth_error r (nbr_of nl bond)) as [r_j|] eqn:Hj; [|discriminate].
      destruct (IH _ _ H) as (n & rvecs & Hn & Hall & H2 & ->).
      exists (S n), (wrap (vsub r_j r_i) :: rvecs). simpl.
      repeat split; auto; try lia.
      constructor; eauto.
    + injection H as <-. exists 0%nat, []. repeat split; auto; lia.
Qed.

Lemma with_array_same (st : LocalDescriptors) : with_array st (m_sphArray st) = st.
Proof. destruct st; reflexivity. Qed.

(** *** The [LocalNeighborhood] tensor is symmetric *)

Lemma spec_inertia_sym vs a c : spec_inertia vs a c = spec_inertia vs c a.
Proof.
  induction vs as [|v t IH]; simpl; [reflexivity|].
  rewrite IH. replace (kron a c) with (kron c a) by (unfold kron; rewrite Nat.eqb_sym; reflexivity).
  ring.
Qed.

Lemma spec_inertia_diag_nonneg vs a : (a < 3)%nat -> 0 <= spec_inertia vs a a.
Proof.
  intros Ha. induction vs as [|v t IH]; simpl; [lra|].
  destruct v as [x y z]. unfold dot, kron, comp; simpl.
  destruct a as [|[|[|a]]]; try lia; simpl; nra.
Qed.

(** *** Accessors *)

(** [getNSphs()], [getLMax()]. *)
Definition getNSphs (st : LocalDescriptors) : nat := m_nSphs st.
Definition getLMax (st : LocalDescriptors) : nat := m_lmax st.

(** [getSph()]: the array the returned [shared_ptr] designates. *)
Definition getSph (st : LocalDescriptors) : list complexf := m_sphArray st.

(** *** The bonds a call visits *)




(** The output buffer holds at least [m_nSphs * getSphWidth()] entries. *)
Definition buffer_ok (st : LocalDescriptors) : Prop :=
  (m_nSphs st * getSphWidth st <= length (m_sphArray st))%nat.

(** The engine states a program can reach: a constructed engine, then any
    sequence of [compute] calls (each with its own inputs and collaborators). *)
Inductive reachable : LocalDescriptors -> Prop :=
| reachable_ctor lmax neg : reachable (LocalDescriptors_ctor lmax neg)
| reachable_compute wrap diag conj rot atan2 acos isnan sph st nl nNeigh r_ref Nref r Np q_ref o :
    reachable st ->
    reachable (fst (compute wrap diag conj rot atan2 acos isnan sph
                      st nl nNeigh r_ref Nref r Np q_ref o)).

(** *** Facts about runs of bonds *)






(** *** Buffer writes *)



Lemma write_slots_some arr off vals :
  (off + length vals <= length arr)%nat ->
  exists arr', write_slots arr off vals = Some arr' /\ length arr' = length arr.
Proof.
  revert arr off. induction vals as [|v vs IH]; intros arr off H; cbn [write_slots].
  - eexists; split; reflexivity.
  - cbn [length] in H. destruct (Nat.ltb_spec off (length arr)); [|lia].
    destruct (IH (firstn off arr ++ v :: skipn (S off) arr) (S off)) as (a & Ha & Hl).
    + rewrite length_app, length_firstn. cbn [length]. rewrite length_skipn. lia.
    + exists a. split; [exact Ha|]. rewrite Hl, length_app, length_firstn. cbn [length].
      rewrite length_skipn. lia.
Qed.

(** *** The neighbor list *)

Lemma validate_bond nl Nref Np b :
  validate nl Nref Np = true -> (b < getNumBonds nl)%nat ->
  (ref_of nl b < Nref)%nat /\ (nbr_of nl b < Np)%nat.
Proof.
  unfold validate, ref_of, nbr_of, getNumBonds. intros Hv Hb.
  rewrite forallb_forall in Hv.
  specialize (Hv _ (@nth_In _ b nl (0, 0)%nat Hb)).
  destruct (nth b nl (0, 0)%nat) as [a c]. simpl.
  apply andb_true_iff in Hv as [H1 H2]. apply Nat.ltb_lt in H1, H2. lia.
Qed.

Lemma realloc_fields st (c : bool) n :
  m_lmax (if c then reallocate st n else st) = m_lmax st /\
  m_negative_m (if c then reallocate st n else st) = m_negative_m st /\
  m_nSphs (if c then reallocate st n else st) = m_nSphs st /\
  getSphWidth (if c then reallocate st n else st) = getSphWidth st.
Proof. destruct c; repeat split. Qed.

Lemma u32_le n : (u32 n <= n)%nat.
Proof.
  unfold u32. pose proof (N.Div0.mod_le (N.of_nat n) UINT_MOD) as H.
  lia.
Qed.

(** *** The buffer invariant *)

Lemma compute_buffer_ok wrap diag conj rot atan2 acos isnan sph st nl nNeigh r_ref Nref r Np q_ref o :
  let st' := fst (compute wrap diag conj rot atan2 acos isnan sph st nl nNeigh r_ref Nref r Np q_ref o) in
  m_lmax st' = m_lmax st /\ m_negative_m st' = m_negative_m st /\
  (buffer_ok st -> buffer_ok st').
Proof.
  unfold compute.
  destruct (validate nl Nref Np); cbn [negb]; [|simpl; auto].
  set (c := (m_nSphs st <? getNumBonds nl)%nat).
  set (st1 := if c then reallocate st (getNumBonds nl * getSphWidth st) else st).
  assert (Hlen : (m_nSphs st * getSphWidth st <= length (m_sphArray st))%nat ->
                 (Nat.max (m_nSphs st) (if c then getNumBonds nl else 0) * getSphWidth st
                  <= length (m_sphArray st1))%nat).
  { intros Hb. unfold st1, c. destruct (Nat.ltb_spec (m_nSphs st) (getNumBonds nl)).
    - simpl. rewrite repeat_length. apply Nat.mul_le_mono_r. lia.
    - rewrite Nat.max_0_r. exact Hb. }
  assert (Hlen2 : c = false -> (m_nSphs st * getSphWidth st <= length (m_sphArray st))%nat ->
                 (getNumBonds nl * getSphWidth st <= length (m_sphArray st1))%nat).
  { intros Hc Hb. unfold st1. rewrite Hc. unfold c in Hc. apply Nat.ltb_ge in Hc.
    eapply Nat.le_trans; [|exact Hb]. apply Nat.mul_le_mono_r. exact Hc. }
  destruct (realloc_fields st c (getNumBonds nl * getSphWidth st)) as (E1 & E2 & E3 & E4).
  fold st1 in E1, E2, E3, E4.
  pose proof (particle_loop_length wrap diag conj rot atan2 acos isnan sph nl nNeigh r_ref r q_ref o
    (m_lmax st1) (getSphWidth st1) (m_negative_m st1) (m_sphArray st1) 0 Nref) as HL.
  destruct (particle_loop _ _ _ _ _ _ _ _ _ _ _ _ _ _ _ _ _ _ _ _) as [arr [e|]]; simpl in HL |- *;
    unfold buffer_ok, getSphWidth in *; simpl; rewrite E1, E2; repeat split; intros Hb.
  - rewrite HL, E3. specialize (Hlen Hb). eapply Nat.le_trans; [|exact Hlen].
    apply Nat.mul_le_mono_r. lia.
  - rewrite HL. eapply Nat.le_trans; [apply Nat.mul_le_mono_r, u32_le|].
    destruct c eqn:Hc.
    + unfold st1. simpl. rewrite repeat_length. reflexivity.
    + apply Hlen2; [reflexivity|exact Hb].
Qed.

Lemma reachable_buffer_ok st : reachable st -> buffer_ok st.
Proof.
  induction 1 as [lmax neg|wrap diag conj rot atan2 acos isnan sph st nl nNeigh r_ref Nref r Np q_ref o _ IH].
  - unfold buffer_ok. simpl. lia.
  - apply (compute_buffer_ok wrap diag conj rot atan2 acos isnan sph st nl nNeigh r_ref Nref r Np q_ref o).
    exact IH.
Qed.


(** *** What a call writes *)

Section Slots.

Variables (wrap : vec3 -> vec3) (diag : Mat33 -> (nat -> R) * Mat33) (conj : quat -> quat)
  (rot : quat -> frame) (atan2 : R -> R -> R) (acos : R -> R) (isnan : R -> bool)
  (sph : nat -> bool -> R -> R -> list complexf).
Variables (nl : list (nat * nat)) (nNeigh : nat) (r_ref r : list vec3)
  (q_ref : option (list quat)) (o : Z) (lmax width : nat) (neg : bool).

(** The evaluator yields [width] coefficients, and the slot offsets
    [bond * getSphWidth()] do not wrap around. *)
Hypothesis Hsph : forall phi theta, length (sph lmax neg phi theta) = width.
Hypothesis Hfit : (N.of_nat (getNumBonds nl * width) < UINT_MOD)%N.

Lemma bond_descriptor_length fr rij :
  length (bond_descriptor atan2 acos isnan sph lmax neg fr rij) = width.
Proof. unfold bond_descriptor. destruct (bond_theta_phi _ _ _ _ _). apply Hsph. Qed.

Lemma u32_offset b : (b < getNumBonds nl)%nat -> u32 (b * width) = (b * width)%nat.
Proof.
  intros Hb. apply u32_small.
  assert (b * width <= getNumBonds nl * width)%nat by (apply Nat.mul_le_mono_r; lia).
  lia.
Qed.



End Slots.


(** *** When a call succeeds *)

Lemma inertia_loop_ok wrap nl r r_i i bond fuel T Nref Np :
  validate nl Nref Np = true -> (Np <= length r)%nat ->
  exists T', inertia_loop wrap nl r r_i i bond fuel T = Ok T'.
Proof.
  intros Hv Hr. revert bond T. induction fuel as [|f IH]; intros bond T; cbn [inertia_loop].
  - eexists; reflexivity.
  - destruct (Nat.ltb_spec bond (getNumBonds nl)) as [Hb|Hb]; [|eexists; reflexivity].
    destruct (ref_of nl bond =? i)%nat; [|eexists; reflexivity]. simpl.
    destruct (validate_bond nl Nref Np bond Hv Hb) as [_ Hj].
    destruct (nth_error r (nbr_of nl bond)) eqn:E.
    + apply IH.
    + apply nth_error_None in E. lia.
Qed.

Lemma frame_for_ok wrap diag conj rot nl nNeigh r q_ref o i bond r_i Nref Np :
  validate nl Nref Np = true -> (Np <= length r)%nat -> (i < Nref)%nat ->
  (o = LocalNeighborhood \/ o = Global \/
   (o = ParticleLocal /\ exists qs, q_ref = Some qs /\ (Nref <= length qs)%nat)) ->
  exists fr, frame_for wrap diag conj rot nl nNeigh r q_ref o i bond r_i = Ok fr.
Proof.
  intros Hv Hr Hi Ho. unfold frame_for.
  destruct Ho as [->|[->|(-> & qs & -> & Hq)]]; simpl.
  - destruct (inertia_loop_ok wrap nl r r_i i bond nNeigh zero33 Nref Np Hv Hr) as [T ->].
    eexists; reflexivity.
  - eexists; reflexivity.
  - destruct (nth_error qs i) eqn:E; [eexists; reflexivity|].
    apply nth_error_None in E. lia.
Qed.

Section Success.

Variables (wrap : vec3 -> vec3) (diag : Mat33 -> (nat -> R) * Mat33) (conj : quat -> quat)
  (rot : quat -> frame) (atan2 : R -> R -> R) (acos : R -> R) (isnan : R -> bool)
  (sph : nat -> bool -> R -> R -> list complexf).
Variables (nl : list (nat * nat)) (nNeigh : nat) (r_ref r : list vec3)
  (q_ref : option (list quat)) (o : Z) (lmax width : nat) (neg : bool) (Nref Np : nat).
Hypothesis Hsph : forall phi theta, length (sph lmax neg phi theta) = width.
Hypothesis Hfit : (N.of_nat (getNumBonds nl * width) < UINT_MOD)%N.
Hypothesis Hv : validate nl Nref Np = true.
Hypothesis Hr : (Np <= length r)%nat.
Hypothesis Hrref : (Nref <= length r_ref)%nat.
Hypothesis Ho : o = LocalNeighborhood \/ o = Global \/
  (o = ParticleLocal /\ exists qs, q_ref = Some qs /\ (Nref <= length qs)%nat).

Lemma bond_loop_ok arr fr r_i i bond fuel :
  (getNumBonds nl * width <= length arr)%nat ->
  exists arr', bond_loop wrap atan2 acos isnan sph nl r lmax width neg arr fr r_i i bond fuel = (arr', None).
Proof.
  revert arr bond. induction fuel as [|f IH]; intros arr bond Harr; cbn [bond_loop].
  - eexists; reflexivity.
  - destruct (Nat.ltb_spec bond (getNumBonds nl)) as [Hb|Hb]; [|eexists; reflexivity].
    destruct (ref_of nl bond =? i)%nat; [|eexists; reflexivity]. simpl.
    destruct (validate_bond nl Nref Np bond Hv Hb) as [_ Hj].
    destruct (nth_error r (nbr_of nl bond)) as [r_j|] eqn:E.
    2:{ apply nth_error_None in E. lia. }
    rewrite (u32_offset nl width Hfit bond Hb).
    destruct (write_slots_some arr (bond * width)
                (bond_descriptor atan2 acos isnan sph lmax neg fr (wrap (vsub r_j r_i))))
      as (arr1 & Hw & Hl).
    { rewrite (bond_descriptor_length atan2 acos isnan sph lmax width neg Hsph).
      assert (S bond * width <= getNumBonds nl * width)%nat by (apply Nat.mul_le_mono_r; lia).
      simpl in *. lia. }
    rewrite Hw. apply IH. lia.
Qed.

Lemma particle_loop_ok arr i0 fuel :
  (i0 + fuel <= Nref)%nat -> (getNumBonds nl * width <= length arr)%nat ->
  exists arr', particle_loop wrap diag conj rot atan2 acos isnan sph nl nNeigh r_ref r q_ref o
                 lmax width neg arr i0 fuel = (arr', None).
Proof.
  revert arr i0. induction fuel as [|f IH]; intros arr i0 Hi Harr; cbn [particle_loop].
  - eexists; reflexivity.
  - destruct (nth_error r_ref i0) as [r_i|] eqn:E.
    2:{ apply nth_error_None in E. lia. }
    destruct (frame_for_ok wrap diag conj rot nl nNeigh r q_ref o i0 (find_first_index nl i0) r_i
                Nref Np Hv Hr ltac:(lia) Ho) as [fr ->].
    destruct (bond_loop_ok arr fr r_i i0 (find_first_index nl i0) nNeigh Harr) as [arr1 Hbl].
    pose proof (bond_loop_length wrap atan2 acos isnan sph nl r lmax width neg arr fr r_i i0
                 (find_first_index nl i0) nNeigh) as HL.
    rewrite Hbl in HL |- *. simpl in HL.
    apply IH; lia.
Qed.

End Success.


(** *** A whole call *)


Lemma compute_ok wrap diag conj rot atan2 acos isnan sph st nl nNeigh r_ref Nref r Np q_ref o :
  validate nl Nref Np = true -> (Nref <= length r_ref)%nat -> (Np <= length r)%nat ->
  (o = LocalNeighborhood \/ o = Global \/
   (o = ParticleLocal /\ exists qs, q_ref = Some qs /\ (Nref <= length qs)%nat)) ->
  (forall phi theta, length (sph (m_lmax st) (m_negative_m st) phi theta) = getSphWidth st) ->
  (N.of_nat (getNumBonds nl * getSphWidth st) < UINT_MOD)%N ->
  buffer_ok st ->
  snd (compute wrap diag conj rot atan2 acos isnan sph st nl nNeigh r_ref Nref r Np q_ref o) = None.
Proof.
  intros Hv Hrref Hr Ho Hsph Hfit Hb. unfold compute. rewrite Hv. cbn [negb].
  destruct (realloc_fields st (m_nSphs st <? getNumBonds nl)%nat (getNumBonds nl * getSphWidth st))
    as (E1 & E2 & _ & E4).
  rewrite E1, E2, E4.
  assert (Harr : (getNumBonds nl * getSphWidth st <=
                  length (m_sphArray (if (m_nSphs st <? getNumBonds nl)%nat
                                      then reallocate st (getNumBonds nl * getSphWidth st) else st)))%nat).
  { destruct (Nat.ltb_spec (m_nSphs st) (getNumBonds nl)).
    - simpl. rewrite repeat_length. lia.
    - unfold buffer_ok in Hb. eapply Nat.le_trans; [|exact Hb]. apply Nat.mul_le_mono_r. exact H. }
  destruct (particle_loop_ok wrap diag conj rot atan2 acos isnan sph nl nNeigh r_ref r q_ref o
              (m_lmax st) (getSphWidth st) (m_negative_m st) Nref Np Hsph Hfit Hv Hr Hrref Ho
              _ 0 Nref ltac:(lia) Harr) as [arr ->].
  reflexivity.
Qed.

End LD.

(** ** A concrete choice of the external collaborators

    Used to run the model on explicit inputs: the identity box wrap, an
    eigensolver returning the identity basis, identity quaternion
    functions, constant angle functions and an evaluator that yields
    [getSphWidth] zero coefficients. *)

Module Ex.

Open Scope R_scope.

Definition wrap (v : LD.vec3) : LD.vec3 := v.
Definition diagonalize33 (T : LD.Mat33) : (nat -> R) * LD.Mat33 := (fun _ => 0, LD.kron).
Definition conj (q : LD.quat) : LD.quat := q.
Definition rotmat3_rows (q : LD.quat) : LD.frame := LD.global_frame.
Definition atan2 (y x : R) : R := 0.
Definition acos (x : R) : R := 0.
Definition isnan (x : R) : bool := false.
Definition sph_eval (lmax : nat) (neg : bool) (phi theta : R) : list LD.complexf :=
  repeat (0, 0) (Fsph.getSphWidth lmax neg).

Definition compute := LD.compute wrap diagonalize33 conj rotmat3_rows atan2 acos isnan sph_eval.

Definition origin : LD.vec3 := LD.mkVec 0 0 0.

(** One reference particle and one particle at the same place, with
    [nb] self bonds, in [Global] mode. *)
Definition bonds (nb : nat) : list (nat * nat) := repeat (0, 0)%nat nb.
Definition call (st : LD.LocalDescriptors) (nb : nat) : LD.LocalDescriptors * option LD.error :=
  compute st (bonds nb) 3 [origin] 1 [origin] 1 None LD.Global.

Definition st0 : LD.LocalDescriptors := LD.LocalDescriptors_ctor 0 false.
Definition st_3 : LD.LocalDescriptors := fst (call st0 3).
Definition st_3_1 : LD.LocalDescriptors := fst (call st_3 1).
Definition st_3_1_2 : LD.LocalDescriptors := fst (call st_3_1 2).

Lemma sph_eval_length lmax neg phi theta :
  length (sph_eval lmax neg phi theta) = Fsph.getSphWidth lmax neg.
Proof. unfold sph_eval. apply repeat_length. Qed.

End Ex.

(** ** The polar-angle guard over IEEE binary32

    Lines 126-138 of [LocalDescriptors.cc] in [float] arithmetic:
    [rsq = dot(rij, rij)], [magR = sqrt(rsq)], [phi = acos(bond_ij.z / magR)],
    and [if (isnan(phi)) phi = bond_ij.z > 0 ? 0 : M_PI]. Additions,
    multiplications, the division and the square root are the correctly
    rounded binary32 operations (no contraction into fused operations). *)

Module F32.

Open Scope Z_scope.

Definition prec : Z := 24.
Definition emax : Z := 128.

Definition binary32 : Type := spec_float.

Definition add : binary32 -> binary32 -> binary32 := SFadd prec emax.
Definition mul : binary32 -> binary32 -> binary32 := SFmul prec emax.
Definition div : binary32 -> binary32 -> binary32 := SFdiv prec emax.
Definition sqrt : binary32 -> binary32 := SFsqrt prec emax.
Definition ltb : binary32 -> binary32 -> bool := SFltb.

(** The binary32 value nearest to [m * 2^e]. *)
Definition of_int (m e : Z) : binary32 := binary_normalize prec emax m e false.

Definition zero : binary32 := S754_zero false.
Definition one : binary32 := of_int 1 0.
Definition minus_one : binary32 := SFopp one.

Definition is_nan (x : binary32) : bool :=
  match x with S754_nan => true | _ => false end.

Record vec3 := mkVec { x : binary32; y : binary32; z : binary32 }.

Definition dot (a b : vec3) : binary32 :=
  add (add (mul (x a) (x b)) (mul (y a) (y b))) (mul (z a) (z b)).

Definition global_frame : vec3 * vec3 * vec3 :=
  (mkVec one zero zero, mkVec zero one zero, mkVec zero zero one).

Definition project (fr : vec3 * vec3 * vec3) (v : vec3) : vec3 :=
  let '(r0, r1, r2) := fr in mkVec (dot r0 v) (dot r1 v) (dot r2 v).

(** libm's [acos] is kept symbolic: [PAcos r] stands for [acos(r)] as
    returned by the C library, [PZero] and [PPi] for the constants the
    guard stores. By C99 Annex F.9.1.1, [acos(x)] is a NaN exactly when
    [x] is a NaN or [|x| > 1], and [acos(1) = +0]; for [-1 < x < 1] it is
    strictly between 0 and pi. *)
Inductive polar := PAcos (r : binary32) | PZero | PPi.

Definition acos_is_nan (r : binary32) : bool :=
  is_nan r || ltb one r || ltb r minus_one.

(** The argument handed to [acos]. *)
Definition ratio (rij bond_ij : vec3) : binary32 :=
  let rsq := dot rij rij in
  let magR := sqrt rsq in
  div (z bond_ij) magR.

Definition polar_angle (rij bond_ij : vec3) : polar :=
  let r := ratio rij bond_ij in
  if acos_is_nan r then (if ltb zero (z bond_ij) then PZero else PPi) else PAcos r.

Definition polar_is_nan (p : polar) : bool :=
  match p with PAcos r => acos_is_nan r | _ => false end.

(** The angle denotes 0 (the stored constant, or [acos(1) = +0]). *)
Definition polar_is_zero (p : polar) : bool :=
  match p with PZero => true | PAcos r => SFeqb r one | PPi => false end.

(** The angle denotes pi (the stored constant, or [acos(-1)]). *)
Definition polar_is_pi (p : polar) : bool :=
  match p with PPi => true | PAcos r => SFeqb r minus_one | PZero => false end.

(** A finite value: a zero or a finite nonzero number. *)
Definition is_finite (v : binary32) : bool :=
  match v with S754_zero _ | S754_finite _ _ _ => true | _ => false end.

Lemma add_zeros s1 s2 : exists s, add (S754_zero s1) (S754_zero s2) = S754_zero s.
Proof. destruct s1, s2; eexists; reflexivity. Qed.

Lemma mul_finite_zero a s2 : is_finite a = true -> exists s, mul a (S754_zero s2) = S754_zero s.
Proof. intros H. destruct a; try discriminate H; eexists; reflexivity. Qed.

(** The dot product of a finite vector with a zero vector (of any signs) is a zero. *)
Lemma dot_zero v sx sy sz :
  is_finite (x v) && is_finite (y v) && is_finite (z v) = true ->
  exists s, dot v (mkVec (S754_zero sx) (S754_zero sy) (S754_zero sz)) = S754_zero s.
Proof.
  intros H. apply andb_true_iff in H as [H H3]. apply andb_true_iff in H as [H1 H2].
  unfold dot. simpl.
  destruct (mul_finite_zero _ sx H1) as [s1 ->].
  destruct (mul_finite_zero _ sy H2) as [s2 ->].
  destruct (mul_finite_zero _ sz H3) as [s3 ->].
  destruct (add_zeros s1 s2) as [s4 ->]. apply add_zeros.
Qed.

End F32.

(** ** RotationalAutocorrelation *)

Module RA.

Open Scope Z_scope.

(** [unsigned int] arithmetic. *)
Definition u32z (v : Z) : Z := v mod 2 ^ 32.

(** The mathematical factorial, as an exact integer. *)
Fixpoint zfact (n : nat) : Z :=
  match n with
  | O => 1
  | S k => Z.of_nat (S k) * zfact k
  end.

(** A scalar member: indeterminate until it is first assigned. *)
Inductive indet (A : Type) : Type := Indeterminate | Val (a : A).
Arguments Indeterminate {A}.
Arguments Val {A} a.

(** The members; a [shared_ptr] member is [None] when null. *)
Record RotationalAutocorrelation := mkRA {
  m_l : indet Z;
  m_N : indet Z;
  m_Ft : indet R;
  m_RA_array : option (list (R * R));
  m_factorials : option (list Z)
}.

(** [RotationalAutocorrelation() {}]: no member is initialized; the two
    [shared_ptr] members are default-constructed, hence null. *)
Definition default_ctor : RotationalAutocorrelation :=
  mkRA Indeterminate Indeterminate Indeterminate None None.

(** [a[i] = v] in an array of [length a] elements; [None] when the write
    is out of bounds (undefined behaviour). *)
Definition set_nth (a : list Z) (i : nat) (v : Z) : option (list Z) :=
  if (i <? length a)%nat then Some (firstn i a ++ v :: skipn (S i) a) else None.

(** [for (i = ...; fuel iterations; i++) m_factorials[i] = i*m_factorials[i-1];] *)
Fixpoint fill_factorials (cache : list Z) (i fuel : nat) : option (list Z) :=
  match fuel with
  | O => Some cache
  | S f =>
      match set_nth cache i (u32z (Z.of_nat i * nth (i - 1) cache 0)) with
      | None => None
      | Some c => fill_factorials c (S i) f
      end
  end.

(** [RotationalAutocorrelation(l)] for an [unsigned int] l: an array of
    [m_l+1] (an [unsigned int] sum) zeroed entries, [m_factorials[0] = 1],
    then the loop for i = 1..l. [None]: undefined behaviour. *)
Definition ctor (l : Z) : option RotationalAutocorrelation :=
  let cache := repeat 0 (Z.to_nat (u32z (l + 1))) in
  match set_nth cache 0 1 with
  | None => None
  | Some c =>
      match fill_factorials c 1 (Z.to_nat l) with
      | None => None
      | Some c' => Some (mkRA (Val l) (Val 0) (Val 0%R) None (Some c'))
      end
  end.

Definition getL (st : RotationalAutocorrelation) : indet Z := m_l st.
Definition getN (st : RotationalAutocorrelation) : indet Z := m_N st.
Definition getRAArray (st : RotationalAutocorrelation) : option (list (R * R)) := m_RA_array st.
Definition getRotationalAutocorrelation (st : RotationalAutocorrelation) : indet R := m_Ft st.

(** The factorial cache of an instance holds, for its quantum number l,
    the l+1 values [i! mod 2^32] for i = 0..l. *)
Definition factorial_cache_ok (st : RotationalAutocorrelation) : Prop :=
  exists l f, m_l st = Val l /\ m_factorials st = Some f /\
    length f = S (Z.to_nat l) /\
    forall i, (i <= Z.to_nat l)%nat -> nth i f 0 = zfact i mod 2 ^ 32.

Lemma zfact_fact (n : nat) : zfact n = Z.of_nat (fact n).
Proof.
  induction n as [|k IH]; [reflexivity|].
  cbn [zfact fact]. rewrite IH, <- Nat2Z.inj_mul. reflexivity.
Qed.

Lemma nth_set (a : list Z) (i k : nat) (v : Z) :
  (i < length a)%nat ->
  nth k (firstn i a ++ v :: skipn (S i) a) 0 = if (k =? i)%nat then v else nth k a 0.
Proof.
  revert i k. induction a as [|x a IH]; intros i k Hi; [simpl in Hi; lia|].
  destruct i as [|i]; destruct k as [|k]; simpl; try reflexivity.
  apply IH. simpl in Hi. lia.
Qed.

Lemma length_set (a : list Z) (i : nat) (v : Z) :
  (i < length a)%nat -> length (firstn i a ++ v :: skipn (S i) a) = length a.
Proof.
  intros Hi. rewrite length_app, length_firstn. cbn [length].
  rewrite length_skipn. lia.
Qed.

Lemma fill_factorials_spec (f : nat) : forall (c : list Z) (i : nat),
  (1 <= i)%nat -> (i + f <= length c)%nat ->
  (forall k, (k < i)%nat -> nth k c 0 = zfact k mod 2 ^ 32) ->
  exists c', fill_factorials c i f = Some c' /\ length c' = length c /\
    forall k, (k < i + f)%nat -> nth k c' 0 = zfact k mod 2 ^ 32.
Proof.
  induction f as [|f IH]; intros c i H1 Hlen Hk; cbn [fill_factorials].
  - exists c. split; [reflexivity|]. split; [reflexivity|].
    intros k Hk'. apply Hk. lia.
  - unfold set_nth. destruct (i <? length c)%nat eqn:E; [|apply Nat.ltb_ge in E; lia].
    apply Nat.ltb_lt in E.
    set (v := u32z (Z.of_nat i * nth (i - 1) c 0)).
    assert (Hv : v = zfact i mod 2 ^ 32).
    { unfold v, u32z. rewrite Hk by lia.
      rewrite Z.mul_mod_idemp_r by lia.
      destruct i as [|j]; [lia|]. cbn [zfact]. rewrite Nat.sub_succ, Nat.sub_0_r. reflexivity. }
    destruct (IH (firstn i c ++ v :: skipn (S i) c) (S i)) as (c' & Hf & Hl & Hc').
    + lia.
    + rewrite length_set by exact E. lia.
    + intros k Hk'. rewrite nth_set by exact E.
      destruct (k =? i)%nat eqn:Eki.
      * apply Nat.eqb_eq in Eki. subst k. exact Hv.
      * apply Nat.eqb_neq in Eki. apply Hk. lia.
    + exists c'. split; [exact Hf|]. split.
      * rewrite Hl. apply length_set. exact E.
      * intros k Hk'. apply Hc'. lia.
Qed.

(** The constructor, for every l whose [m_l+1] does not wrap around. *)
Lemma ctor_spec (l : Z) : 0 <= l < 2 ^ 32 - 1 ->
  exists f, ctor l = Some (mkRA (Val l) (Val 0) (Val 0%R) None (Some f)) /\
    length f = S (Z.to_nat l) /\
    forall i, (i <= Z.to_nat l)%nat -> nth i f 0 = zfact i mod 2 ^ 32.
Proof.
  intros Hl. unfold ctor.
  assert (Hs : Z.to_nat (u32z (l + 1)) = S (Z.to_nat l)).
  { unfold u32z. rewrite Z.mod_small by lia. rewrite Z2Nat.inj_add by lia. simpl. lia. }
  rewrite Hs. cbn [repeat]. unfold set_nth at 1. cbn [length firstn skipn app].
  rewrite (proj2 (Nat.ltb_lt 0 (S (length (repeat 0 (Z.to_nat l)))))) by lia.
  destruct (fill_factorials_spec (Z.to_nat l) (1 :: repeat 0 (Z.to_nat l)) 1)
    as (c' & Hf & Hlen & Hc).
  - lia.
  - simpl. rewrite repeat_length. lia.
  - intros k Hk. destruct k; [reflexivity|lia].
  - rewrite Hf. exists c'. split; [reflexivity|]. split.
    + rewrite Hlen. simpl. rewrite repeat_length. reflexivity.
    + intros i Hi. apply Hc. lia.
Qed.

Lemma zfact_small (i : nat) : (i <= 12)%nat -> zfact i mod 2 ^ 32 = zfact i.
Proof.
  intros Hi.
  do 13 (destruct i as [|i]; [reflexivity|]). lia.
Qed.

Lemma zfact_34_mul k : exists p, zfact (34 + k) = p * zfact 34.
Proof.
  induction k as [|k [p IH]].
  - exists 1. rewrite Nat.add_0_r, Z.mul_1_l. reflexivity.
  - exists (Z.of_nat (S (34 + k)) * p). rewrite Nat.add_succ_r. cbn [zfact].
    rewrite IH, Z.mul_assoc. reflexivity.
Qed.

(** [i! mod 2^32] vanishes exactly from i = 34 on (34! has 32 factors 2, 33! only 31). *)
Lemma zfact_mod_zero i : zfact i mod 2 ^ 32 = 0 <-> (34 <= i)%nat.
Proof.
  split.
  - intros H. destruct (le_lt_dec 34 i) as [Hi|Hi]; [exact Hi|exfalso].
    do 34 (destruct i as [|i]; [vm_compute in H; discriminate H|]). lia.
  - intros Hi. destruct (zfact_34_mul (i - 34)) as [p Hp].
    replace (34 + (i - 34))%nat with i in Hp by lia. rewrite Hp.
    rewrite <- Z.mul_mod_idemp_r by lia.
    replace (zfact 34 mod 2 ^ 32) with 0 by (vm_compute; reflexivity).
    rewrite Z.mul_0_r. reflexivity.
Qed.

(** *** The operations of an instance

    [compute], [quat_to_greek] and [hypersphere_harmonic] are defined in
    [RotationalAutocorrelation.cc], which is not among the sources;
    [compute] follows the spec's section 4.2: for each particle i < N,
    the sum over the valid (m1, m2) of harmonic(ref) * conj(harmonic(cur))
    is stored in a fresh per-particle array, whose sum, divided by N, has
    its real part scaled by the normalization for l and stored in [m_Ft];
    [m_N] becomes N. The harmonic reads the factorial cache. A call with
    fewer than N orientations reads out of bounds; one on an instance
    whose [m_l] or cache is unset reads indeterminate or null members:
    [None], undefined behaviour. *)

Definition complex := (R * R)%type.
Definition cadd (a b : complex) : complex := (fst a + fst b, snd a + snd b)%R.
Definition cmul (a b : complex) : complex :=
  (fst a * fst b - snd a * snd b, fst a * snd b + snd a * fst b)%R.
Definition cconj (a : complex) : complex := (fst a, - snd a)%R.

Section Ops.

Variable quat_to_greek : LD.quat -> complex * complex.
(** [hypersphere_harmonic(xi, zeta, l, m1, m2)] with the cache it reads. *)
Variable hypersphere_harmonic : list Z -> complex -> complex -> Z -> Z -> Z -> complex.
(** The valid pairs (m1, m2) for l. *)
Variable valid_pairs : Z -> list (Z * Z).
(** The normalization constant for l. *)
Variable normalization : Z -> R.

Definition particle_value (cache : list Z) (l : Z) (q0 q : LD.quat) : complex :=
  let (xi0, zeta0) := quat_to_greek q0 in
  let (xi, zeta) := quat_to_greek q in
  fold_right (fun m acc =>
      cadd acc (cmul (hypersphere_harmonic cache xi0 zeta0 l (fst m) (snd m))
                     (cconj (hypersphere_harmonic cache xi zeta l (fst m) (snd m)))))
    (0%R, 0%R) (valid_pairs l).

Definition compute (st : RotationalAutocorrelation) (ref_ors ors : list LD.quat) (N : Z)
  : option RotationalAutocorrelation :=
  match m_l st, m_factorials st with
  | Val l, Some cache =>
      if (Z.to_nat N <=? length ref_ors)%nat && (Z.to_nat N <=? length ors)%nat then
        let arr := map (fun i => particle_value cache l (nth i ref_ors (LD.mkQuat 0%R (LD.mkVec 0%R 0%R 0%R)))
                                                   (nth i ors (LD.mkQuat 0%R (LD.mkVec 0%R 0%R 0%R))))
                       (seq 0 (Z.to_nat N)) in
        let total := fold_right cadd (0%R, 0%R) arr in
        Some (mkRA (Val l) (Val N) (Val (normalization l * (fst total / IZR N)))%R
                   (Some arr) (Some cache))
      else None
  | _, _ => None
  end.

(** The public operations; the accessors only return a member. *)
Inductive op :=
| GetL
| GetN
| GetRAArray
| GetRotationalAutocorrelation
| Compute (ref_ors ors : list LD.quat) (N : Z).

Definition step (st : RotationalAutocorrelation) (o : op) : option RotationalAutocorrelation :=
  match o with
  | Compute ref_ors ors N => compute st ref_ors ors N
  | _ => Some st
  end.

(** A sequence of operations on one instance; [None] once one of them has
    undefined behaviour. *)
Fixpoint run (ops : list op) (st : RotationalAutocorrelation) : option RotationalAutocorrelation :=
  match ops with
  | [] => Some st
  | o :: ops' =>
      match step st o with
      | None => None
      | Some st' => run ops' st'
      end
  end.

Lemma step_keeps_cache st o st' :
  step st o = Some st' -> m_factorials st' = m_factorials st /\ m_l st' = m_l st.
Proof.
  destruct o as [| | | |ref_ors ors N]; simpl; try (intros H; injection H as <-; auto).
  unfold compute. destruct (m_l st) as [|l] eqn:El; [discriminate|].
  destruct (m_factorials st) as [cache|] eqn:Ec; [|discriminate].
  destruct (_ && _); [|discriminate].
  intros H. injection H as <-. simpl. auto.
Qed.

Lemma run_keeps_cache ops : forall st st',
  run ops st = Some st' -> m_factorials st' = m_factorials st /\ m_l st' = m_l st.
Proof.
  induction ops as [|o ops IH]; intros st st' H; simpl in H.
  - injection H as <-. auto.
  - destruct (step st o) as [st1|] eqn:E; [|discriminate].
    destruct (step_keeps_cache st o st1 E) as [E1 E2].
    destruct (IH st1 st' H) as [E3 E4]. rewrite E3, E4. auto.
Qed.

End Ops.

End RA.

(** * Claims *)

(** C1: a call whose neighbor list does not validate throws
    InvalidArgument and leaves the whole engine state as it was; the
    stored Nref and bond count change only when the whole pass succeeds
    (a failing call keeps them, a successful one sets them). *)
Theorem compute_invalid_argument_no_mutation wrap diag conj rot atan2 acos isnan sph
  st nl nNeigh r_ref Nref r Np q_ref o :
  (LD.validate nl Nref Np = false ->
   LD.compute wrap diag conj rot atan2 acos isnan sph st nl nNeigh r_ref Nref r Np q_ref o
   = (st, Some LD.InvalidArgument)) /\
  (let '(st', err) :=
     LD.compute wrap diag conj rot atan2 acos isnan sph st nl nNeigh r_ref Nref r Np q_ref o in
   match err with
   | Some _ => LD.m_Nref st' = LD.m_Nref st /\ LD.m_nSphs st' = LD.m_nSphs st
   | None => LD.m_Nref st' = Nref /\ LD.m_nSphs st' = u32 (LD.getNumBonds nl)
   end).
Proof.
  unfold LD.compute. split.
  - intros H. rewrite H. reflexivity.
  - destruct (LD.validate nl Nref Np); simpl; [|split; reflexivity].
    destruct (LD.m_nSphs st <? LD.getNumBonds nl)%nat;
      destruct (LD.particle_loop _ _ _ _ _ _ _ _ _ _ _ _ _ _ _ _ _ _ _ _) as [arr [e|]];
      simpl; split; reflexivity.
Qed.

Lemma compute_invalid_argument_no_mutation_witness :
  LD.validate [(0, 5)%nat] 1 1 = false /\
  Ex.compute Ex.st_3 [(0, 5)%nat] 3 [Ex.origin] 1 [Ex.origin] 1 None LD.Global
  = (Ex.st_3, Some LD.InvalidArgument).
Proof.
  split; [reflexivity|].
  apply (proj1 (compute_invalid_argument_no_mutation Ex.wrap Ex.diagonalize33 Ex.conj
    Ex.rotmat3_rows Ex.atan2 Ex.acos Ex.isnan Ex.sph_eval Ex.st_3 [(0, 5)%nat] 3 [Ex.origin] 1
    [Ex.origin] 1 None LD.Global)).
  reflexivity.
Defined.

(** C3 (counterexample): three successful calls with 3, then 1, then 2
    bonds. The third call's count (2) is below the largest seen (3) and
    fits the existing 3-slot buffer, yet the buffer is reallocated, and
    the capacity drops from 3 to 2 slots. *)
Lemma buffer_capacity_not_high_water_mark :
  snd (Ex.call Ex.st0 3) = None /\
  snd (Ex.call Ex.st_3 1) = None /\
  snd (Ex.call Ex.st_3_1 2) = None /\
  length (LD.m_sphArray Ex.st_3) = 3%nat /\
  LD.m_allocs Ex.st_3_1 = LD.m_allocs Ex.st_3 /\
  length (LD.m_sphArray Ex.st_3_1) = 3%nat /\
  LD.m_allocs Ex.st_3_1_2 = S (LD.m_allocs Ex.st_3_1) /\
  length (LD.m_sphArray Ex.st_3_1_2) = 2%nat.
Proof. repeat split; reflexivity. Qed.

(** C3 (amended): a successful call reallocates the buffer exactly when
    its bond count exceeds the count stored by the previous successful
    call ([m_nSphs]), not the buffer's capacity; the new buffer has
    exactly [nb * getSphWidth] slots, otherwise the old buffer is kept
    with its capacity; and the call stores exactly its bond count. *)
Theorem compute_reallocates_iff_count_exceeds_last wrap diag conj rot atan2 acos isnan sph
  st nl nNeigh r_ref Nref r Np q_ref o :
  (N.of_nat (LD.getNumBonds nl) < UINT_MOD)%N ->
  snd (LD.compute wrap diag conj rot atan2 acos isnan sph st nl nNeigh r_ref Nref r Np q_ref o)
  = None ->
  let st' :=
    fst (LD.compute wrap diag conj rot atan2 acos isnan sph st nl nNeigh r_ref Nref r Np q_ref o) in
  let nb := LD.getNumBonds nl in
  LD.m_allocs st' = (if (LD.m_nSphs st <? nb)%nat then S (LD.m_allocs st) else LD.m_allocs st) /\
  length (LD.m_sphArray st')
  = (if (LD.m_nSphs st <? nb)%nat then (nb * LD.getSphWidth st)%nat
     else length (LD.m_sphArray st)) /\
  LD.m_nSphs st' = nb.
Proof.
  intros Hnb Hok. unfold LD.compute in *.
  destruct (LD.validate nl Nref Np); simpl in *; [|discriminate].
  set (st1 := if (LD.m_nSphs st <? LD.getNumBonds nl)%nat
              then LD.reallocate st (LD.getNumBonds nl * LD.getSphWidth st) else st) in *.
  pose proof (LD.particle_loop_length wrap diag conj rot atan2 acos isnan sph nl nNeigh r_ref r
    q_ref o (LD.m_lmax st1) (LD.getSphWidth st1) (LD.m_negative_m st1) (LD.m_sphArray st1) 0 Nref)
    as HL.
  destruct (LD.particle_loop _ _ _ _ _ _ _ _ _ _ _ _ _ _ _ _ _ _ _ _) as [arr [e'|]];
    simpl in *; [discriminate|].
  rewrite HL, u32_small by exact Hnb.
  unfold st1; destruct (LD.m_nSphs st <? LD.getNumBonds nl)%nat; simpl.
  - rewrite repeat_length. repeat split; reflexivity.
  - repeat split; reflexivity.
Qed.

Lemma compute_reallocates_iff_count_exceeds_last_witness :
  (N.of_nat 1 < UINT_MOD)%N /\ snd (Ex.call Ex.st_3 1) = None /\
  LD.m_allocs (fst (Ex.call Ex.st_3 1)) = LD.m_allocs Ex.st_3 /\
  length (LD.m_sphArray (fst (Ex.call Ex.st_3 1))) = length (LD.m_sphArray Ex.st_3) /\
  LD.m_nSphs (fst (Ex.call Ex.st_3 1)) = 1%nat.
Proof.
  assert (H1 : (N.of_nat 1 < UINT_MOD)%N) by reflexivity.
  assert (H2 : snd (Ex.call Ex.st_3 1) = None) by reflexivity.
  pose proof (compute_reallocates_iff_count_exceeds_last Ex.wrap Ex.diagonalize33 Ex.conj
    Ex.rotmat3_rows Ex.atan2 Ex.acos Ex.isnan Ex.sph_eval Ex.st_3 (Ex.bonds 1) 3 [Ex.origin] 1
    [Ex.origin] 1 None LD.Global H1 H2) as (Ha & Hl & Hn).
  split; [exact H1|]. split; [exact H2|].
  split; [exact Ha|]. split; [exact Hl|]. exact Hn.
Defined.

(** C4 (counterexample): from a fresh engine, a call with orientation
    value 3 and one bond throws UnsupportedMode, but only after the output
    buffer has been replaced by a fresh allocation; and with Nref = 0 the
    same orientation value is never inspected and the call succeeds. *)
Lemma unsupported_mode_mutates_or_succeeds :
  snd (Ex.compute Ex.st0 (Ex.bonds 1) 3 [Ex.origin] 1 [Ex.origin] 1 None 3%Z)
  = Some LD.UnsupportedMode /\
  LD.m_sphArray (fst (Ex.compute Ex.st0 (Ex.bonds 1) 3 [Ex.origin] 1 [Ex.origin] 1 None 3%Z))
  <> LD.m_sphArray Ex.st0 /\
  LD.m_allocs (fst (Ex.compute Ex.st0 (Ex.bonds 1) 3 [Ex.origin] 1 [Ex.origin] 1 None 3%Z))
  <> LD.m_allocs Ex.st0 /\
  snd (Ex.compute Ex.st0 [] 3 [] 0 [] 0 None 3%Z) = None.
Proof. repeat split; cbv; try discriminate; reflexivity. Qed.

(** C4 (amended): for a validated call whose orientation value is none
    of LocalNeighborhood, ParticleLocal and Global (with the Nref
    reference positions present): if Nref >= 1 the call throws
    UnsupportedMode before any descriptor is written, with the stored
    Nref and bond count unchanged, but after the buffer-growth step (a
    fresh buffer, every slot (0, 0), when the bond count exceeds the
    stored one); if Nref = 0 the mode is never inspected and the call succeeds. *)
Theorem compute_unsupported_mode wrap diag conj rot atan2 acos isnan sph
  st nl nNeigh r_ref Nref r Np q_ref o :
  LD.validate nl Nref Np = true ->
  o <> LD.LocalNeighborhood -> o <> LD.ParticleLocal -> o <> LD.Global ->
  (Nref <= length r_ref)%nat ->
  let nb := LD.getNumBonds nl in
  let st1 := if (LD.m_nSphs st <? nb)%nat then LD.reallocate st (nb * LD.getSphWidth st) else st in
  LD.compute wrap diag conj rot atan2 acos isnan sph st nl nNeigh r_ref Nref r Np q_ref o
  = if (Nref =? 0)%nat then (LD.save_counts st1 0 nb, None) else (st1, Some LD.UnsupportedMode).
Proof.
  intros Hv H0 H2 H1 Hlen nb st1. unfold LD.compute. rewrite Hv. simpl negb. cbv iota.
  fold nb st1.
  destruct Nref as [|n]; simpl.
  - rewrite LD.with_array_same. reflexivity.
  - destruct r_ref as [|r_0 rs]; [simpl in Hlen; lia|]. simpl.
    unfold LD.frame_for.
    apply Z.eqb_neq in H0, H1, H2. rewrite H0, H1, H2.
    rewrite LD.with_array_same. reflexivity.
Qed.

Lemma compute_unsupported_mode_witness :
  LD.validate (Ex.bonds 1) 1 1 = true /\
  Ex.compute Ex.st0 (Ex.bonds 1) 3 [Ex.origin] 1 [Ex.origin] 1 None 3%Z
  = (LD.reallocate Ex.st0 (1 * LD.getSphWidth Ex.st0), Some LD.UnsupportedMode).
Proof.
  split; [reflexivity|].
  apply (compute_unsupported_mode Ex.wrap Ex.diagonalize33 Ex.conj Ex.rotmat3_rows Ex.atan2
    Ex.acos Ex.isnan Ex.sph_eval Ex.st0 (Ex.bonds 1) 3 [Ex.origin] 1 [Ex.origin] 1 None 3%Z);
    try reflexivity; try discriminate; simpl; lia.
Defined.

(** C6: in Global mode the frame is the identity basis, and for every
    wrapped bond vector the (theta, phi) handed to the harmonic evaluator
    are the spherical coordinates of that raw vector. *)
Theorem global_mode_identity_frame wrap diag conj rot atan2 acos isnan sph
  nl nNeigh r q_ref lmax neg i bond r_i rij :
  LD.frame_for wrap diag conj rot nl nNeigh r q_ref LD.Global i bond r_i = LD.Ok LD.global_frame /\
  LD.bond_theta_phi atan2 acos isnan LD.global_frame rij = LD.spherical_coords atan2 acos isnan rij /\
  LD.bond_descriptor atan2 acos isnan sph lmax neg LD.global_frame rij
  = (let '(theta, phi) := LD.spherical_coords atan2 acos isnan rij in sph lmax neg phi theta).
Proof.
  assert (Hp : LD.project LD.global_frame rij = rij).
  { destruct rij as [x y z]. unfold LD.project, LD.global_frame, LD.dot. simpl.
    f_equal; ring. }
  assert (Ha : LD.bond_theta_phi atan2 acos isnan LD.global_frame rij
               = LD.spherical_coords atan2 acos isnan rij).
  { unfold LD.bond_theta_phi, LD.spherical_coords. rewrite Hp. reflexivity. }
  split; [reflexivity|]. split; [exact Ha|].
  unfold LD.bond_descriptor. rewrite Ha. reflexivity.
Qed.

(** C7: in LocalNeighborhood mode the frame of reference particle i comes
    from a run of at most nNeigh consecutive bonds of i: the tensor
    accumulated over their wrapped vectors has, at every entry (a, c),
    the sum of |rvec|^2 * delta_ac - rvec_a * rvec_c; the solver's three
    eigenvectors become rotation_0/1/2 in the order it returns them, and
    the frame does not depend on the eigenvalues the solver returns (no
    re-sorting). *)
Theorem local_neighborhood_frame wrap diag conj rot nl nNeigh r q_ref i bond r_i fr :
  LD.frame_for wrap diag conj rot nl nNeigh r q_ref LD.LocalNeighborhood i bond r_i = LD.Ok fr ->
  exists n rvecs,
    (n <= nNeigh)%nat /\
    Forall (fun b => (b < LD.getNumBonds nl)%nat /\ LD.ref_of nl b = i) (seq bond n) /\
    Forall2 (fun b v => exists r_j, nth_error r (LD.nbr_of nl b) = Some r_j
                                   /\ v = wrap (LD.vsub r_j r_i)) (seq bond n) rvecs /\
    (let T := fold_left LD.inertia_step rvecs LD.zero33 in
     (forall a c, (a < 3)%nat -> (c < 3)%nat -> T a c = LD.spec_inertia rvecs a c) /\
     fr = (LD.eigenvector (snd (diag T)) 0, LD.eigenvector (snd (diag T)) 1,
           LD.eigenvector (snd (diag T)) 2)) /\
    (forall ev : LD.Mat33 -> nat -> R,
       LD.frame_for wrap (fun M => (ev M, snd (diag M))) conj rot nl nNeigh r q_ref
         LD.LocalNeighborhood i bond r_i = LD.Ok fr).
Proof.
  unfold LD.frame_for. simpl.
  destruct (LD.inertia_loop wrap nl r r_i i bond nNeigh LD.zero33) as [T|e] eqn:E;
    [|discriminate].
  intros H. injection H as <-.
  destruct (LD.inertia_loop_run _ _ _ _ _ _ _ _ _ E) as (n & rvecs & Hn & Hall & H2 & ->).
  exists n, rvecs. repeat split; auto.
  intros a c Ha Hc. rewrite LD.fold_inertia_entry by assumption.
  unfold LD.zero33. ring.
Qed.

Lemma local_neighborhood_frame_witness :
  LD.frame_for Ex.wrap Ex.diagonalize33 Ex.conj Ex.rotmat3_rows (Ex.bonds 2) 1 [Ex.origin]
    None LD.LocalNeighborhood 0 0 Ex.origin
  = LD.Ok (LD.eigenvector LD.kron 0, LD.eigenvector LD.kron 1, LD.eigenvector LD.kron 2) /\
  exists n rvecs, (n <= 1)%nat /\
    Forall2 (fun b v => exists r_j, nth_error [Ex.origin] (LD.nbr_of (Ex.bonds 2) b) = Some r_j
                                   /\ v = Ex.wrap (LD.vsub r_j Ex.origin)) (seq 0 n) rvecs.
Proof.
  assert (H : LD.frame_for Ex.wrap Ex.diagonalize33 Ex.conj Ex.rotmat3_rows (Ex.bonds 2) 1
                [Ex.origin] None LD.LocalNeighborhood 0 0 Ex.origin
              = LD.Ok (LD.eigenvector LD.kron 0, LD.eigenvector LD.kron 1, LD.eigenvector LD.kron 2))
    by reflexivity.
  split; [exact H|].
  destruct (local_neighborhood_frame _ _ _ _ _ _ _ _ _ _ _ _ H)
    as (n & rvecs & Hn & _ & H2 & _).
  exists n, rvecs. split; [exact Hn|exact H2].
Defined.

(** C9: in LocalNeighborhood and Global modes the result of compute (the
    engine state after the call and the outcome) is the same for any two
    reference-orientation arrays, a null one included: q_ref is read only
    on the ParticleLocal branch. *)
Theorem q_ref_unused_outside_particle_local wrap diag conj rot atan2 acos isnan sph
  st nl nNeigh r_ref Nref r Np q1 q2 o :
  o = LD.LocalNeighborhood \/ o = LD.Global ->
  LD.compute wrap diag conj rot atan2 acos isnan sph st nl nNeigh r_ref Nref r Np q1 o
  = LD.compute wrap diag conj rot atan2 acos isnan sph st nl nNeigh r_ref Nref r Np q2 o.
Proof.
  intros Ho. assert (Hne : o <> LD.ParticleLocal) by (destruct Ho; subst; discriminate).
  unfold LD.compute.
  destruct (LD.validate nl Nref Np); simpl; [|reflexivity].
  rewrite (LD.particle_loop_q_ref_unused _ _ _ _ _ _ _ _ _ _ _ _ q1 q2 _ _ _ _ _ _ _ Hne).
  reflexivity.
Qed.

Lemma q_ref_unused_outside_particle_local_witness :
  LD.Global = LD.Global /\
  Ex.compute Ex.st0 (Ex.bonds 2) 3 [Ex.origin] 1 [Ex.origin] 1 None LD.Global
  = Ex.compute Ex.st0 (Ex.bonds 2) 3 [Ex.origin] 1 [Ex.origin] 1
      (Some [LD.mkQuat 1 Ex.origin]) LD.Global.
Proof.
  split; [reflexivity|].
  apply (q_ref_unused_outside_particle_local Ex.wrap Ex.diagonalize33 Ex.conj Ex.rotmat3_rows
    Ex.atan2 Ex.acos Ex.isnan Ex.sph_eval). right. reflexivity.
Defined.

(** C2 (counterexample): with lmax = 1 and negative_m set, the width is 4
    (3 coefficients with m >= 0, and Y_1^{-1}), while the count of m >= 0
    coefficients plus the count of m < 0 coefficients through degree
    lmax - 1 = 0 is 3. *)
Lemma sph_width_not_negative_through_lmax_minus_1 :
  Fsph.getSphWidth 1 true = 4%nat /\
  (Fsph.sphCount 1 + length (Fsph.negative_pairs (1 - 1)))%nat = 3%nat.
Proof. split; reflexivity. Qed.

(** C2 (amended): as long as the width fits in an unsigned int,
    getSphWidth() is the count of the m >= 0 coefficients through degree
    lmax plus, when negative_m is set and lmax > 0, the count of the
    m < 0 coefficients through degree lmax (equal to sphCount(lmax - 1));
    in closed form (lmax+1)(lmax+2)/2 plus, conditionally, lmax(lmax+1)/2. *)
Theorem sph_width_formula (lmax : nat) (neg : bool) :
  (N.of_nat ((lmax + 1) * (lmax + 1)) < UINT_MOD)%N ->
  Fsph.getSphWidth lmax neg
  = Fsph.sphCount lmax
    + (if (0 <? lmax) && neg then length (Fsph.negative_pairs lmax) else 0) /\
  Fsph.getSphWidth lmax neg
  = (lmax + 1) * (lmax + 2) / 2 + (if (0 <? lmax) && neg then lmax * (lmax + 1) / 2 else 0).
Proof.
  intros Hb.
  assert (Hsame : (0 < lmax)%nat ->
                  Fsph.sphCount (lmax - 1) = length (Fsph.negative_pairs lmax)).
  { intros Hpos. pose proof (Fsph.sphCount_twice (lmax - 1)) as H1.
    pose proof (Fsph.negative_count_twice lmax) as H2.
    replace (lmax - 1 + 1) with lmax in H1 by lia.
    replace (lmax - 1 + 2) with (lmax + 1) in H1 by lia. lia. }
  assert (Hfit : forall k, (k <= (lmax + 1) * (lmax + 1))%nat -> u32 k = k).
  { intros k Hk. apply u32_small. unfold UINT_MOD in *. lia. }
  pose proof (Fsph.sphCount_twice lmax) as Hc.
  pose proof (Fsph.negative_count_twice lmax) as Hn.
  unfold Fsph.getSphWidth.
  destruct ((0 <? lmax) && neg) eqn:E.
  - apply andb_true_iff in E as [E _]. apply Nat.ltb_lt in E.
    rewrite Hsame by exact E. rewrite Hfit by nia.
    rewrite Fsph.sphCount_closed, Fsph.negative_count_closed. split; reflexivity.
  - rewrite Nat.add_0_r, Hfit by nia. rewrite Fsph.sphCount_closed.
    rewrite Nat.add_0_r. split; reflexivity.
Qed.

Lemma sph_width_formula_witness :
  (N.of_nat ((2 + 1) * (2 + 1)) < UINT_MOD)%N /\
  Fsph.getSphWidth 2 true = (3 * 4 / 2 + 2 * 3 / 2)%nat.
Proof.
  assert (H : (N.of_nat ((2 + 1) * (2 + 1)) < UINT_MOD)%N) by reflexivity.
  split; [exact H|]. exact (proj2 (sph_width_formula 2 true H)).
Defined.

(** C5 (counterexample): in Global mode, the wrapped bond (0, 0, 2^65) is
    exactly aligned with the z-axis and has z > 0, but rsq overflows to
    infinity, the ratio handed to acos is +0, no NaN arises, and phi is
    acos(0) (pi/2): neither clamped nor 0. *)
Lemma polar_angle_aligned_not_clamped :
  let rij := F32.mkVec F32.zero F32.zero (F32.of_int 1 65) in
  let bond_ij := F32.project F32.global_frame rij in
  F32.x bond_ij = F32.zero /\ F32.y bond_ij = F32.zero /\ F32.ltb F32.zero (F32.z bond_ij) = true /\
  F32.ratio rij bond_ij = F32.zero /\
  F32.polar_angle rij bond_ij = F32.PAcos F32.zero /\
  F32.polar_is_zero (F32.polar_angle rij bond_ij) = false /\
  F32.polar_is_pi (F32.polar_angle rij bond_ij) = false.
Proof. vm_compute. repeat split; reflexivity. Qed.

(** C5 (amended): the polar angle is never a NaN; whenever acos would
    return a NaN (the ratio z/|r| is a NaN, as for a zero-length bond, or
    lies outside [-1, 1]) phi is 0 when z > 0 and pi otherwise; otherwise
    phi is acos of the ratio, which is 0 exactly when the ratio evaluates
    to 1 and pi when it evaluates to -1. *)
Theorem polar_angle_guard (rij bond_ij : F32.vec3) :
  F32.polar_is_nan (F32.polar_angle rij bond_ij) = false /\
  (F32.acos_is_nan (F32.ratio rij bond_ij) = true ->
   F32.polar_angle rij bond_ij
   = if F32.ltb F32.zero (F32.z bond_ij) then F32.PZero else F32.PPi) /\
  (F32.acos_is_nan (F32.ratio rij bond_ij) = false ->
   F32.polar_angle rij bond_ij = F32.PAcos (F32.ratio rij bond_ij)) /\
  (F32.ratio rij bond_ij = F32.one -> F32.polar_is_zero (F32.polar_angle rij bond_ij) = true) /\
  (F32.ratio rij bond_ij = F32.minus_one -> F32.polar_is_pi (F32.polar_angle rij bond_ij) = true).
Proof.
  unfold F32.polar_angle. cbv zeta.
  destruct (F32.acos_is_nan (F32.ratio rij bond_ij)) eqn:E.
  - split; [destruct (F32.ltb _ _); reflexivity|].
    split; [intros _; reflexivity|].
    split; [intros H; discriminate H|].
    split; intros H; rewrite H in E; discriminate E.
  - split; [exact E|].
    split; [intros H; discriminate H|].
    split; [intros _; reflexivity|].
    split; intros H; rewrite H; reflexivity.
Qed.

Lemma polar_angle_guard_witness :
  let zv := F32.mkVec F32.zero F32.zero F32.zero in
  let uz := F32.mkVec F32.zero F32.zero F32.one in
  F32.acos_is_nan (F32.ratio zv zv) = true /\ F32.polar_angle zv zv = F32.PPi /\
  F32.ratio uz (F32.project F32.global_frame uz) = F32.one /\
  F32.polar_is_zero (F32.polar_angle uz (F32.project F32.global_frame uz)) = true.
Proof.
  intros zv uz.
  assert (H1 : F32.acos_is_nan (F32.ratio zv zv) = true) by reflexivity.
  assert (H2 : F32.ratio uz (F32.project F32.global_frame uz) = F32.one) by reflexivity.
  pose proof (polar_angle_guard zv zv) as (_ & G1 & _).
  pose proof (polar_angle_guard uz (F32.project F32.global_frame uz)) as (_ & _ & _ & G2 & _).
  split; [exact H1|]. split; [rewrite (G1 H1); reflexivity|].
  split; [exact H2|]. exact (G2 H2).
Defined.

(** C8 (counterexample): the cache of RotationalAutocorrelation(13)
    holds 13! modulo 2^32 = 1932053504 at index 13, not 13! = 6227020800
    ([unsigned int] products wrap around). *)
Lemma factorial_cache_wraps_at_13 :
  RA.ctor 13%Z = Some (RA.mkRA (RA.Val 13%Z) (RA.Val 0%Z) (RA.Val 0%R) None
    (Some [1; 1; 2; 6; 24; 120; 720; 5040; 40320; 362880; 3628800; 39916800;
           479001600; 1932053504]%Z)) /\
  RA.zfact 13 = 6227020800%Z /\ RA.zfact 13 = Z.of_nat (fact 13).
Proof.
  split; [reflexivity|]. split; [reflexivity|]. apply RA.zfact_fact.
Qed.

(** C8 (amended): for every l whose m_l+1 does not wrap around, the
    constructor RotationalAutocorrelation(l) leaves a cache of l+1 entries,
    entry i being i! modulo 2^32 (the exact factorial for i <= 12); and no
    later sequence of operations of the instance (the accessors and
    compute) changes the cache or l. *)
Theorem rotational_autocorrelation_factorial_cache (l : Z) :
  (0 <= l < 2 ^ 32 - 1)%Z ->
  exists f,
    RA.ctor l = Some (RA.mkRA (RA.Val l) (RA.Val 0%Z) (RA.Val 0%R) None (Some f)) /\
    length f = S (Z.to_nat l) /\
    (forall i, (i <= Z.to_nat l)%nat -> nth i f 0%Z = (RA.zfact i mod 2 ^ 32)%Z) /\
    (forall i, (i <= Z.to_nat l)%nat -> (i <= 12)%nat -> nth i f 0%Z = RA.zfact i) /\
    (forall quat_to_greek harmonic valid_pairs normalization ops st',
       RA.run quat_to_greek harmonic valid_pairs normalization ops
         (RA.mkRA (RA.Val l) (RA.Val 0%Z) (RA.Val 0%R) None (Some f)) = Some st' ->
       RA.m_factorials st' = Some f /\ RA.m_l st' = RA.Val l).
Proof.
  intros Hl. destruct (RA.ctor_spec l Hl) as (f & Hc & Hlen & Hf).
  exists f. split; [exact Hc|]. split; [exact Hlen|]. split; [exact Hf|]. split.
  - intros i Hi H12. rewrite Hf by exact Hi. apply RA.zfact_small. exact H12.
  - intros g h vp nz ops st' H. exact (RA.run_keeps_cache g h vp nz ops _ st' H).
Qed.

Lemma rotational_autocorrelation_factorial_cache_witness :
  (0 <= 4 < 2 ^ 32 - 1)%Z /\
  RA.ctor 4%Z = Some (RA.mkRA (RA.Val 4%Z) (RA.Val 0%Z) (RA.Val 0%R) None (Some [1; 1; 2; 6; 24]%Z)) /\
  exists st',
    RA.run (fun _ => ((0%R, 0%R), (0%R, 0%R))) (fun _ _ _ _ _ _ => (1%R, 0%R))
      (fun _ => [(0%Z, 0%Z)]) (fun _ => 1%R)
      [RA.GetL; RA.Compute [LD.mkQuat 1 (LD.mkVec 0 0 0)] [LD.mkQuat 1 (LD.mkVec 0 0 0)] 1%Z; RA.GetN]
      (RA.mkRA (RA.Val 4%Z) (RA.Val 0%Z) (RA.Val 0%R) None (Some [1; 1; 2; 6; 24]%Z)) = Some st' /\
    RA.m_factorials st' = Some [1; 1; 2; 6; 24]%Z.
Proof.
  assert (H : (0 <= 4 < 2 ^ 32 - 1)%Z) by lia.
  destruct (rotational_autocorrelation_factorial_cache 4%Z H) as (f & Hc & Hlen & Hf & _ & Hrun).
  assert (Ef : f = [1; 1; 2; 6; 24]%Z).
  { destruct f as [|a0 [|a1 [|a2 [|a3 [|a4 [|a5 f]]]]]]; simpl in Hlen; try discriminate.
    pose proof (Hf 0%nat ltac:(simpl; lia)) as E0. pose proof (Hf 1%nat ltac:(simpl; lia)) as E1.
    pose proof (Hf 2%nat ltac:(simpl; lia)) as E2. pose proof (Hf 3%nat ltac:(simpl; lia)) as E3.
    pose proof (Hf 4%nat ltac:(simpl; lia)) as E4.
    simpl in E0, E1, E2, E3, E4. subst. reflexivity. }
  subst f.
  split; [exact H|]. split; [exact Hc|].
  match goal with |- exists st', ?e = Some st' /\ _ =>
    destruct e as [st'|] eqn:Hr; [|cbv in Hr; discriminate Hr] end.
  exists st'. split; [reflexivity|]. exact (proj1 (Hrun _ _ _ _ _ _ Hr)).
Defined.

(** C10: the default constructor leaves the quantum number, the stored N
    and the scalar result indeterminate and both pointers (the factorial
    cache and the per-particle array) null, so its accessors return no
    determined value; such an instance does not satisfy the
    factorial-cache invariant, which RotationalAutocorrelation(l)
    establishes. *)
Theorem default_ctor_leaves_members_unset :
  RA.m_l RA.default_ctor = RA.Indeterminate /\
  RA.m_N RA.default_ctor = RA.Indeterminate /\
  RA.m_Ft RA.default_ctor = RA.Indeterminate /\
  RA.m_factorials RA.default_ctor = None /\
  RA.getL RA.default_ctor = RA.Indeterminate /\
  RA.getN RA.default_ctor = RA.Indeterminate /\
  RA.getRotationalAutocorrelation RA.default_ctor = RA.Indeterminate /\
  RA.getRAArray RA.default_ctor = None /\
  ~ RA.factorial_cache_ok RA.default_ctor /\
  (forall l, (0 <= l < 2 ^ 32 - 1)%Z ->
     exists st, RA.ctor l = Some st /\ RA.factorial_cache_ok st).
Proof.
  repeat split.
  - intros (l & f & Hl & _). discriminate Hl.
  - intros l Hl. destruct (RA.ctor_spec l Hl) as (f & Hc & Hlen & Hf).
    exists (RA.mkRA (RA.Val l) (RA.Val 0%Z) (RA.Val 0%R) None (Some f)).
    split; [exact Hc|]. exists l, f. repeat split; assumption.
Qed.

(** * Further properties of the code *)

(** X1: every call to compute, successful or not, keeps lmax and
    negative_m, hence the descriptor width, and keeps the output buffer at
    least [m_nSphs * getSphWidth()] entries long. *)
Theorem compute_keeps_width_and_buffer wrap diag conj rot atan2 acos isnan sph
  st nl nNeigh r_ref Nref r Np q_ref o :
  let st' := fst (LD.compute wrap diag conj rot atan2 acos isnan sph st nl nNeigh r_ref Nref r Np q_ref o) in
  LD.getLMax st' = LD.getLMax st /\ LD.getSphWidth st' = LD.getSphWidth st /\
  (LD.buffer_ok st -> LD.buffer_ok st').
Proof.
  intros st'.
  destruct (LD.compute_buffer_ok wrap diag conj rot atan2 acos isnan sph st nl nNeigh r_ref Nref r Np q_ref o)
    as (E1 & E2 & Hb).
  fold st' in E1, E2, Hb.
  unfold LD.getLMax, LD.getSphWidth. rewrite E1, E2. auto.
Qed.

(** X2: in every state reachable from the constructor through compute
    calls, the array returned by getSph() holds at least
    [getNSphs() * getSphWidth()] entries. *)
Theorem reachable_buffer_fits st :
  LD.reachable st -> (LD.getNSphs st * LD.getSphWidth st <= length (LD.getSph st))%nat.
Proof. intros H. exact (LD.reachable_buffer_ok st H). Qed.

Lemma reachable_buffer_fits_witness :
  LD.reachable Ex.st_3 /\ (LD.getNSphs Ex.st_3 * LD.getSphWidth Ex.st_3 <= length (LD.getSph Ex.st_3))%nat.
Proof.
  assert (H : LD.reachable Ex.st_3).
  { unfold Ex.st_3, Ex.call, Ex.compute. apply LD.reachable_compute. apply LD.reachable_ctor. }
  split; [exact H|]. exact (reachable_buffer_fits Ex.st_3 H).
Defined.

(** X3: on a reachable engine, a call succeeds (no exception, no
    out-of-bounds access) when the neighbor list validates, the position
    arrays hold Nref and Np entries, the mode is LocalNeighborhood or
    Global, or ParticleLocal with Nref orientations, the evaluator yields
    getSphWidth() coefficients, and the slot offsets do not wrap. *)
Theorem compute_succeeds_on_valid_input wrap diag conj rot atan2 acos isnan sph
  st nl nNeigh r_ref Nref r Np q_ref o :
  LD.reachable st ->
  LD.validate nl Nref Np = true -> (Nref <= length r_ref)%nat -> (Np <= length r)%nat ->
  (o = LD.LocalNeighborhood \/ o = LD.Global \/
   (o = LD.ParticleLocal /\ exists qs, q_ref = Some qs /\ (Nref <= length qs)%nat)) ->
  (forall phi theta, length (sph (LD.m_lmax st) (LD.m_negative_m st) phi theta) = LD.getSphWidth st) ->
  (N.of_nat (LD.getNumBonds nl * LD.getSphWidth st) < UINT_MOD)%N ->
  snd (LD.compute wrap diag conj rot atan2 acos isnan sph st nl nNeigh r_ref Nref r Np q_ref o) = None.
Proof.
  intros Hreach Hv Hrref Hr Ho Hsph Hfit.
  exact (LD.compute_ok wrap diag conj rot atan2 acos isnan sph st nl nNeigh r_ref Nref r Np q_ref o
           Hv Hrref Hr Ho Hsph Hfit (LD.reachable_buffer_ok st Hreach)).
Qed.

Lemma compute_succeeds_on_valid_input_witness :
  snd (Ex.compute Ex.st0 (Ex.bonds 2) 3 [Ex.origin] 1 [Ex.origin] 1 None LD.LocalNeighborhood) = None.
Proof.
  apply (compute_succeeds_on_valid_input Ex.wrap Ex.diagonalize33 Ex.conj Ex.rotmat3_rows Ex.atan2
           Ex.acos Ex.isnan Ex.sph_eval Ex.st0 (Ex.bonds 2) 3 [Ex.origin] 1 [Ex.origin] 1 None
           LD.LocalNeighborhood).
  - apply LD.reachable_ctor.
  - reflexivity.
  - simpl; lia.
  - simpl; lia.
  - left; reflexivity.
  - intros phi theta. apply Ex.sph_eval_length.
  - reflexivity.
Defined.





(** X6: the tensor accumulated in LocalNeighborhood mode and handed to
    the eigensolver is symmetric and has a non-negative diagonal (real
    arithmetic). *)
Theorem inertia_tensor_symmetric wrap nl r r_i i bond fuel T :
  LD.inertia_loop wrap nl r r_i i bond fuel LD.zero33 = LD.Ok T ->
  forall a c, (a < 3)%nat -> (c < 3)%nat -> T a c = T c a /\ (0 <= T a a)%R.
Proof.
  intros H a c Ha Hc.
  destruct (LD.inertia_loop_run wrap nl r r_i i bond fuel LD.zero33 T H) as (n & rvecs & _ & _ & _ & ->).
  rewrite !LD.fold_inertia_entry by assumption. unfold LD.zero33.
  rewrite LD.spec_inertia_sym. split; [reflexivity|].
  pose proof (LD.spec_inertia_diag_nonneg rvecs a Ha). lra.
Qed.

Lemma inertia_tensor_symmetric_witness :
  exists T, LD.inertia_loop Ex.wrap (Ex.bonds 2) [LD.mkVec 1 2 3] Ex.origin 0 0 3 LD.zero33 = LD.Ok T /\
    T 0%nat 1%nat = T 1%nat 0%nat /\ (0 <= T 2%nat 2%nat)%R.
Proof.
  destruct (LD.inertia_loop Ex.wrap (Ex.bonds 2) [LD.mkVec 1 2 3] Ex.origin 0 0 3 LD.zero33) as [T|e] eqn:E.
  - exists T. split; [reflexivity|]. split.
    + exact (proj1 (inertia_tensor_symmetric _ _ _ _ _ _ _ _ E 0 1 ltac:(lia) ltac:(lia))).
    + exact (proj2 (inertia_tensor_symmetric _ _ _ _ _ _ _ _ E 2 2 ltac:(lia) ltac:(lia))).
  - cbv in E. discriminate E.
Defined.

(** X7: for an unsigned l, RotationalAutocorrelation(l) has undefined
    behaviour (the write of m_factorials[0] into an array of m_l+1 = 0
    entries) exactly when l = 2^32 - 1. *)
Theorem rotational_autocorrelation_ctor_ub_iff_max (l : Z) :
  (0 <= l < 2 ^ 32)%Z -> RA.ctor l = None <-> l = (2 ^ 32 - 1)%Z.
Proof.
  intros Hl. split.
  - intros H. destruct (Z.eq_dec l (2 ^ 32 - 1)) as [E|E]; [exact E|].
    destruct (RA.ctor_spec l ltac:(lia)) as (f & Hc & _). congruence.
  - intros ->. vm_compute. reflexivity.
Qed.

Lemma rotational_autocorrelation_ctor_ub_iff_max_witness :
  RA.ctor 4294967295%Z = None.
Proof.
  apply (rotational_autocorrelation_ctor_ub_iff_max 4294967295%Z ltac:(lia)). reflexivity.
Defined.

(** X8: in the cache of RotationalAutocorrelation(l), entry i is zero
    exactly when i >= 34 (34! is the first factorial divisible by 2^32). *)
Theorem factorial_cache_zero_from_34 (l : Z) st f i :
  (0 <= l < 2 ^ 32 - 1)%Z -> RA.ctor l = Some st -> RA.m_factorials st = Some f ->
  (i <= Z.to_nat l)%nat ->
  nth i f 0%Z = 0%Z <-> (34 <= i)%nat.
Proof.
  intros Hl Hc Hf Hi.
  destruct (RA.ctor_spec l Hl) as (f' & Hc' & _ & Hn).
  rewrite Hc' in Hc. injection Hc as <-. simpl in Hf. injection Hf as <-.
  rewrite Hn by exact Hi. apply RA.zfact_mod_zero.
Qed.

Lemma factorial_cache_zero_from_34_witness :
  exists st f, RA.ctor 40%Z = Some st /\ RA.m_factorials st = Some f /\ nth 34 f 0%Z = 0%Z.
Proof.
  destruct (RA.ctor 40%Z) as [st|] eqn:E; [|vm_compute in E; discriminate E].
  destruct (RA.m_factorials st) as [f|] eqn:F.
  - exists st, f. split; [reflexivity|]. split; [exact F|].
    apply (factorial_cache_zero_from_34 40%Z st f 34 ltac:(lia) E F ltac:(cbv; lia)). lia.
  - exfalso. vm_compute in E. injection E as <-. discriminate F.
Defined.

(** X9: in binary32, a bond of length zero (every component a signed
    zero) projected through a frame whose third row is finite gets a NaN
    argument for acos, and the guard sets its polar angle to pi. *)
Theorem zero_length_bond_polar_angle_pi (sx sy sz : bool) (r0 r1 r2 : F32.vec3) :
  F32.is_finite (F32.x r2) && F32.is_finite (F32.y r2) && F32.is_finite (F32.z r2) = true ->
  let rij := F32.mkVec (S754_zero sx) (S754_zero sy) (S754_zero sz) in
  F32.acos_is_nan (F32.ratio rij (F32.project (r0, r1, r2) rij)) = true /\
  F32.polar_angle rij (F32.project (r0, r1, r2) rij) = F32.PPi.
Proof.
  intros H rij.
  destruct (F32.dot_zero r2 sx sy sz H) as [s1 E1].
  destruct (F32.dot_zero rij sx sy sz eq_refl) as [s2 E2].
  subst rij.
  unfold F32.polar_angle, F32.ratio, F32.project. cbn [F32.z]. rewrite E1, E2.
  destruct s1, s2; split; reflexivity.
Qed.

Lemma zero_length_bond_polar_angle_pi_witness :
  let rij := F32.mkVec F32.zero F32.zero F32.zero in
  F32.polar_angle rij (F32.project F32.global_frame rij) = F32.PPi.
Proof.
  exact (proj2 (zero_length_bond_polar_angle_pi false false false
    (F32.mkVec F32.one F32.zero F32.zero) (F32.mkVec F32.zero F32.one F32.zero)
    (F32.mkVec F32.zero F32.zero F32.one) eq_refl)).
Defined.
